(** * amcatable.exporters.base: the exporter contract and its streaming adapter

    A verification development for [src/amcatable/exporters/base.py].

    The module defines [QueueWriter], a sink whose [write] puts the chunk on
    a [queue.Queue], and the abstract class [Exporter] with four methods on
    top of the virtual [dump]: [dumps] (materialise in an [io.BytesIO]),
    [_dump_iter] (run [dump] against a [QueueWriter]), [dump_iter] (a
    generator that runs [_dump_iter] on a single-worker thread pool and
    relays the queue) and [dump_http_reponse] (wrap the generator in a
    streaming HTTP response).

    Modelling choices.
    - A [dump] implementation uses its file-like argument only through
      [write] (the docstring of [Exporter.dump]: "the only method the file
      like object needs to support is write"). Its body is therefore a
      finite script of writes closed by a return or a raise: [Prog].
    - Library objects ([io.BytesIO], [queue.Queue],
      [concurrent.futures.Future], [ThreadPoolExecutor]) are modelled by the
      part of their documented behaviour the module relies on.
    - The two threads of [dump_iter] are modelled by an interleaving
      semantics: each thread has a deterministic step function on the
      shared state, and a schedule says which thread moves next. *)

From Stdlib Require Import ZArith Lia Bool.
From stdpp Require Import base option list strings gmap.

Local Open Scope Z_scope.

(** ** Python values used by the module *)

(** [bytes] objects; a chunk is one argument of [write]. *)
Definition bytes := list Byte.byte.

(** Exceptions that can leave [dump]. [NotImplementedError] is the one the
    base class raises; [Exc] stands for any exception of a subclass. *)
Inductive PyExc :=
| NotImplementedError (msg : string)
| Exc (name : string) (msg : string).

#[global] Instance PyExc_eq_dec : EqDecision PyExc.
Proof. solve_decision. Defined.

(** How a call ends: it returns a value, raises, or never returns because
    it waits on a lock nobody releases. *)
Inductive Completion (A : Type) :=
| Returns (a : A)
| Raises (e : PyExc)
| Blocks.
Arguments Returns {A} a.
Arguments Raises {A} e.
Arguments Blocks {A}.

(** A keyword parameter with a default: [None] is "not passed". *)
Definition kw {A : Type} (default : A) (given : option A) : A :=
  match given with
  | Some a => a
  | None => default
  end.

(** Python truthiness of a [str] or [None] value, as tested by [if x:]. *)
Definition truthy (x : option string) : bool :=
  match x with
  | Some (String _ _) => true
  | Some EmptyString => false
  | None => false
  end.

(** [str(x)] for a [str] or [None] value, as [str.format] renders it. *)
Definition py_str (x : option string) : string :=
  match x with
  | Some s => s
  | None => "None"
  end.

(** ** The body of a [dump] implementation *)

(** [PWrite b k] is [fo.write(b)] followed by [k]; [PReturn] falls off the
    end of the method; [PRaise e] raises [e]. *)
Inductive Prog :=
| PWrite (b : bytes) (k : Prog)
| PReturn
| PRaise (e : PyExc).

(** The chunks a body writes, in program order. *)
Fixpoint chunks_of (p : Prog) : list bytes :=
  match p with
  | PWrite b k => b :: chunks_of k
  | PReturn => []
  | PRaise _ => []
  end.

(** The way a body ends once all its writes went through. *)
Fixpoint ending_of (p : Prog) : Completion unit :=
  match p with
  | PWrite _ k => ending_of k
  | PReturn => Returns tt
  | PRaise e => Raises e
  end.

(** The script that writes [bs] and then ends like [last] (used to build
    concrete exporters). *)
Fixpoint script (bs : list bytes) (last : Prog) : Prog :=
  match bs with
  | [] => last
  | b :: bs' => PWrite b (script bs' last)
  end.

(** ** Sinks *)

(** A file-like object as [dump] sees it: [write fo b] is the sink after
    the call, or [None] when the call does not return. *)
Class Sink (S : Type) := write : S → bytes → option S.

(** Running a body against a sink. The result carries the sink as the call
    left it. *)
Fixpoint exec {S : Type} `{Sink S} (p : Prog) (fo : S) : S * Completion unit :=
  match p with
  | PWrite b k =>
      match write fo b with
      | Some fo' => exec k fo'
      | None => (fo, Blocks)
      end
  | PReturn => (fo, Returns tt)
  | PRaise e => (fo, Raises e)
  end.

(** *** io.BytesIO *)

(** An in-memory binary stream: its buffer and the stream position.
    [write] stores the chunk at the position, overwriting what is there and
    growing the buffer (zero-filled if the position is past the end), and
    advances the position. It never blocks. *)
Record BytesIO := mkBytesIO { buf : bytes; pos : nat }.

Definition BytesIO_new : BytesIO := mkBytesIO [] 0.

Definition BytesIO_write (fo : BytesIO) (b : bytes) : BytesIO :=
  let padded := buf fo ++ replicate (pos fo - length (buf fo))%nat Byte.x00 in
  mkBytesIO (take (pos fo) padded ++ b ++ drop (pos fo + length b)%nat padded)
            (pos fo + length b)%nat.

Definition getvalue (fo : BytesIO) : bytes := buf fo.

#[global] Instance BytesIO_sink : Sink BytesIO :=
  fun fo b => Some (BytesIO_write fo b).

(** *** queue.Queue *)

(** A FIFO queue with capacity [maxsize]; the documentation of
    [queue.Queue]: "if maxsize is less than or equal to zero, the queue size
    is infinite". The head of [items] is the oldest entry. *)
Record Queue := mkQueue { maxsize : Z; items : list bytes }.

Definition Queue_new (maxsize : Z) : Queue := mkQueue maxsize [].

Definition Queue_full (q : Queue) : bool :=
  (0 <? maxsize q) && (maxsize q <=? Z.of_nat (length (items q))).

Definition Queue_empty (q : Queue) : bool :=
  match items q with
  | [] => true
  | _ :: _ => false
  end.

(** [q.put(b)] with the default [block=True, timeout=None]: waits while the
    queue is full, then appends. [None] is "still waiting". *)
Definition Queue_put (q : Queue) (b : bytes) : option Queue :=
  if Queue_full q then None else Some (mkQueue (maxsize q) (items q ++ [b])).

(** [q.get(timeout=t)]: the oldest entry if there is one; on an empty queue
    the call ends in [queue.Empty] once the timeout has passed. *)
Definition Queue_get (q : Queue) : option (bytes * Queue) :=
  match items q with
  | [] => None
  | b :: rest => Some (b, mkQueue (maxsize q) rest)
  end.

(** *** QueueWriter *)

Record QueueWriter := mkQueueWriter { queue : Queue }.

(** [QueueWriter.write]: [self.queue.put(b)]. *)
Definition QueueWriter_write (self : QueueWriter) (b : bytes) : option QueueWriter :=
  mkQueueWriter <$> Queue_put (queue self) b.

#[global] Instance QueueWriter_sink : Sink QueueWriter := QueueWriter_write.

(** Calling [write] on the chunks of [bs] in order. *)
Fixpoint write_all {S : Type} `{Sink S} (fo : S) (bs : list bytes) : option S :=
  match bs with
  | [] => Some fo
  | b :: bs' =>
      match write fo b with
      | Some fo' => write_all fo' bs'
      | None => None
      end
  end.

(** *** concurrent.futures *)

(** The states of a [Future] that was not cancelled. [FINISHED] carries the
    exception the call raised, if any. *)
Inductive Future :=
| PENDING
| RUNNING
| FINISHED (exception : option PyExc).

(** [future.running()]: true in state [RUNNING] only. *)
Definition running (f : Future) : bool :=
  match f with
  | RUNNING => true
  | PENDING | FINISHED _ => false
  end.

(** [future.result()] without timeout: waits until the future is finished,
    then returns the call's value or raises its exception. *)
Definition result (f : Future) : Completion unit :=
  match f with
  | FINISHED None => Returns tt
  | FINISHED (Some e) => Raises e
  | PENDING | RUNNING => Blocks
  end.

Section Model.

Variable Table : Type.

(** ** The Exporter class *)

(** An exporter object: the two class attributes and the virtual method.
    [dump self table filename_hint encoding_hint] is the body run against
    the [fo] argument. *)
Record Exporter := mkExporter {
  extension : option string;
  content_type : option string;
  dump : Table → option string → string → Prog;
}.

(** [Exporter.dump] as the base class defines it. *)
Definition Exporter_dump
    (table : Table) (filename_hint : option string) (encoding_hint : string) : Prog :=
  PRaise (NotImplementedError "Subclasses should implement this method.").

(** An instance of the base class itself. *)
Definition base_Exporter : Exporter := mkExporter None None Exporter_dump.

(** [self.dump(table, fo, filename_hint=..., encoding_hint=...)]. *)
Definition call_dump {S : Type} `{Sink S} (self : Exporter) (table : Table) (fo : S)
    (filename_hint : option string) (encoding_hint : string) : S * Completion unit :=
  exec (dump self table filename_hint encoding_hint) fo.

(** [Exporter.dumps]. *)
Definition dumps (self : Exporter) (table : Table)
    (filename_hint : option (option string)) (encoding_hint : option string)
  : Completion bytes :=
  let filename_hint := kw None filename_hint in
  let encoding_hint := kw "utf-8" encoding_hint in
  let fo := BytesIO_new in
  match call_dump self table fo filename_hint encoding_hint with
  | (fo, Returns _) => Returns (getvalue fo)
  | (_, Raises e) => Raises e
  | (_, Blocks) => Blocks
  end.

(** [Exporter._dump_iter], run to its end on the calling thread. *)
Definition _dump_iter (self : Exporter) (queue : Queue) (table : Table)
    (filename_hint : option (option string)) (encoding_hint : option string)
  : QueueWriter * Completion unit :=
  let filename_hint := kw None filename_hint in
  let encoding_hint := kw "utf-8" encoding_hint in
  call_dump self table (mkQueueWriter queue) filename_hint encoding_hint.

(** ** The generator dump_iter *)

(** What [executor.submit(self._dump_iter, queue, table, filename_hint,
    encoding_hint)] puts on the executor's work queue. The queue argument is
    the one queue of the generator's state. *)
Record WorkItem := mkWorkItem {
  wi_self : Exporter;
  wi_table : Table;
  wi_filename_hint : option string;
  wi_encoding_hint : string;
}.

(** The body the worker runs for a work item: that of [_dump_iter] with all
    four arguments passed positionally. *)
Definition task_body (w : WorkItem) : Prog :=
  dump (wi_self w) (wi_table w)
       (kw None (Some (wi_filename_hint w))) (kw "utf-8" (Some (wi_encoding_hint w))).

(** A [ThreadPoolExecutor]: [submit] queues the item and starts a thread
    while fewer than [max_workers] exist; the future it returns is
    [PENDING]. *)
Record ThreadPoolExecutor := mkExecutor {
  max_workers : nat;
  num_threads : nat;
  work_queue : list WorkItem;
}.

Definition ThreadPoolExecutor_new (max_workers : nat) : ThreadPoolExecutor :=
  mkExecutor max_workers 0 [].

Definition submit (ex : ThreadPoolExecutor) (w : WorkItem) : ThreadPoolExecutor * Future :=
  (mkExecutor (max_workers ex)
              (if (num_threads ex <? max_workers ex)%nat
               then S (num_threads ex) else num_threads ex)
              (work_queue ex ++ [w]),
   PENDING).

(** Where the consumer (the thread iterating the generator) stands. *)
Inductive ConsumerPC :=
| AtRunning            (* line 75: about to evaluate future.running() *)
| AtEmpty              (* line 75: running() was false; about to evaluate queue.empty() *)
| AtGet                (* line 78: in queue.get(timeout=0.2) *)
| AtResult             (* line 83: in future.result() *)
| Stopped              (* the generator returned *)
| Failed (e : PyExc).  (* an exception left the generator *)

(** The state shared by the two threads of one [dump_iter] call. *)
Record State := mkState {
  st_queue : Queue;                 (* local [queue] *)
  st_executor : ThreadPoolExecutor; (* local [executor] *)
  st_future : Future;               (* local [future] *)
  st_worker : option Prog;          (* rest of the task the worker is in *)
  st_pc : ConsumerPC;
  st_yielded : list bytes;          (* chunks yielded so far, oldest first *)
}.

(** [Exporter.dump_iter] up to the first evaluation of the loop condition:
    lines 71 to 73. *)
Definition dump_iter (self : Exporter) (table : Table) (buffer_size : option Z)
    (filename_hint : option (option string)) (encoding_hint : option string) : State :=
  let buffer_size := kw 20 buffer_size in
  let filename_hint := kw None filename_hint in
  let encoding_hint := kw "utf-8" encoding_hint in
  let queue := Queue_new buffer_size in
  let executor := ThreadPoolExecutor_new 1 in
  let '(executor, future) :=
    submit executor (mkWorkItem self table filename_hint encoding_hint) in
  mkState queue executor future None AtRunning [].

(** One move of the pool's worker thread: take the work item and mark the
    future running; then run the task one statement at a time, its writes
    going to [QueueWriter(queue)]; at the end store the outcome in the
    future. [None]: the thread waits (no work, or a full queue). *)
Definition worker_step (s : State) : option State :=
  if (num_threads (st_executor s) =? 0)%nat then None else
  match st_worker s with
  | None =>
      match work_queue (st_executor s) with
      | w :: rest =>
          Some (mkState (st_queue s)
                        (mkExecutor (max_workers (st_executor s))
                                    (num_threads (st_executor s)) rest)
                        RUNNING (Some (task_body w)) (st_pc s) (st_yielded s))
      | [] => None
      end
  | Some (PWrite b k) =>
      match write (mkQueueWriter (st_queue s)) b with
      | Some fo =>
          Some (mkState (queue fo) (st_executor s) (st_future s) (Some k)
                        (st_pc s) (st_yielded s))
      | None => None
      end
  | Some PReturn =>
      Some (mkState (st_queue s) (st_executor s) (FINISHED None) None
                    (st_pc s) (st_yielded s))
  | Some (PRaise e) =>
      Some (mkState (st_queue s) (st_executor s) (FINISHED (Some e)) None
                    (st_pc s) (st_yielded s))
  end.

Definition goto (s : State) (pc : ConsumerPC) : State :=
  mkState (st_queue s) (st_executor s) (st_future s) (st_worker s) pc (st_yielded s).

(** One move of the consumer: lines 75 to 83. A [get] on an empty queue
    ends in [Empty] after the timeout and the loop continues. [None]: the
    thread waits in [future.result()], or the generator is over. *)
Definition consumer_step (s : State) : option State :=
  match st_pc s with
  | AtRunning =>
      Some (goto s (if running (st_future s) then AtGet else AtEmpty))
  | AtEmpty =>
      Some (goto s (if negb (Queue_empty (st_queue s)) then AtGet else AtResult))
  | AtGet =>
      match Queue_get (st_queue s) with
      | Some (b, q) =>
          Some (mkState q (st_executor s) (st_future s) (st_worker s)
                        AtRunning (st_yielded s ++ [b]))
      | None => Some (goto s AtRunning)
      end
  | AtResult =>
      match result (st_future s) with
      | Returns _ => Some (goto s Stopped)
      | Raises e => Some (goto s (Failed e))
      | Blocks => None
      end
  | Stopped => None
  | Failed _ => None
  end.

Inductive Thread := Worker | Consumer.

Definition step (t : Thread) (s : State) : option State :=
  match t with
  | Worker => worker_step s
  | Consumer => consumer_step s
  end.

(** Running a schedule: the named thread moves if it can. *)
Fixpoint run (sched : list Thread) (s : State) : State :=
  match sched with
  | [] => s
  | t :: sched' => run sched' (default s (step t s))
  end.

(** How the iteration ended, if it did. *)
Definition outcome (s : State) : option (Completion unit) :=
  match st_pc s with
  | Stopped => Some (Returns tt)
  | Failed e => Some (Raises e)
  | _ => None
  end.

Definition terminated (s : State) : bool :=
  match outcome s with
  | Some _ => true
  | None => false
  end.

(** Neither thread can move and the generator is not over. *)
Definition deadlocked (s : State) : bool :=
  negb (terminated s) &&
  match worker_step s, consumer_step s with
  | None, None => true
  | _, _ => false
  end.

(** ** dump_http_reponse *)

(** The part of Django's [StreamingHttpResponse] the method touches: the
    two constructor arguments and the headers set through item
    assignment. The content is the generator, not yet iterated. *)
Record StreamingHttpResponse := mkResponse {
  streaming_content : State;
  response_content_type : option string;
  headers : gmap string string;
}.

Definition setitem (r : StreamingHttpResponse) (header value : string)
  : StreamingHttpResponse :=
  mkResponse (streaming_content r) (response_content_type r)
             (<[header := value]> (headers r)).

(** The character U+0022. *)
Definition dquote : string := String (Ascii.ascii_of_nat 34) EmptyString.

(** ['attachment; filename="{}.{}"'.format(filename, extension)]. *)
Definition attachment_of (filename extension : option string) : string :=
  "attachment; filename=" +:+ dquote +:+ py_str filename +:+ "." +:+
  py_str extension +:+ dquote.

(** [Exporter.dump_http_reponse]. *)
Definition dump_http_reponse (self : Exporter) (table : Table)
    (filename : option (option string)) (encoding_hint : option string)
  : StreamingHttpResponse :=
  let filename := kw None filename in
  let encoding_hint := kw "utf-8" encoding_hint in
  let content := dump_iter self table None (Some filename) (Some encoding_hint) in
  let response := mkResponse content (content_type self) ∅ in
  if truthy filename then
    let attachment := attachment_of filename (extension self) in
    setitem response "Content-Disposition" attachment
  else response.

End Model.

Arguments extension {Table} _.
Arguments content_type {Table} _.
Arguments dump {Table} _ _ _ _.
Arguments mkExporter {Table} _ _ _.
Arguments Exporter_dump {Table} _ _ _.
Arguments call_dump {Table S _} _ _ _ _ _.
Arguments dumps {Table} _ _ _ _.
Arguments _dump_iter {Table} _ _ _ _ _.
Arguments mkWorkItem {Table} _ _ _ _.
Arguments wi_self {Table} _.
Arguments wi_table {Table} _.
Arguments wi_filename_hint {Table} _.
Arguments wi_encoding_hint {Table} _.
Arguments task_body {Table} _.
Arguments mkExecutor {Table} _ _ _.
Arguments max_workers {Table} _.
Arguments num_threads {Table} _.
Arguments work_queue {Table} _.
Arguments submit {Table} _ _.
Arguments mkState {Table} _ _ _ _ _ _.
Arguments st_queue {Table} _.
Arguments st_executor {Table} _.
Arguments st_future {Table} _.
Arguments st_worker {Table} _.
Arguments st_pc {Table} _.
Arguments st_yielded {Table} _.
Arguments dump_iter {Table} _ _ _ _ _.
Arguments worker_step {Table} _.
Arguments goto {Table} _ _.
Arguments consumer_step {Table} _.
Arguments step {Table} _ _.
Arguments run {Table} _ _.
Arguments outcome {Table} _.
Arguments terminated {Table} _.
Arguments deadlocked {Table} _.
Arguments mkResponse {Table} _ _ _.
Arguments streaming_content {Table} _.
Arguments response_content_type {Table} _.
Arguments headers {Table} _.
Arguments dump_http_reponse {Table} _ _ _ _.

(** ** Observations used in the statements *)

(** A sink that only records the [write] calls it receives, oldest first:
    "the chunks that [dump] writes to its sink". *)
Record Recorder := mkRecorder { written : list bytes }.

#[global] Instance Recorder_sink : Sink Recorder :=
  fun fo b => Some (mkRecorder (written fo ++ [b])).

(** The chunks the worker has still to write: those of the task it is in,
    then those of the items waiting on the work queue. *)
Definition pending_chunks {Table : Type} (s : State Table) : list bytes :=
  match st_worker s with
  | Some p => chunks_of p
  | None => []
  end ++ flat_map (fun w => chunks_of (task_body w)) (work_queue (st_executor s)).

(** Every chunk of the task, in order: yielded, on the queue, or still to
    be written. *)
Definition in_flight {Table : Type} (s : State Table) : list bytes :=
  st_yielded s ++ items (st_queue s) ++ pending_chunks s.

(** The outcome the future holds or will hold. *)
Definition destined {Table : Type} (s : State Table) : Completion unit :=
  match st_future s with
  | FINISHED _ => result (st_future s)
  | PENDING | RUNNING =>
      match st_worker s, work_queue (st_executor s) with
      | Some p, _ => ending_of p
      | None, w :: _ => ending_of (task_body w)
      | None, [] => Blocks
      end
  end.

(** The future, the worker and the work queue agree, and the pool is the
    one [dump_iter] built. *)
Definition consistent {Table : Type} (s : State Table) : Prop :=
  max_workers (st_executor s) = 1%nat ∧
  num_threads (st_executor s) = 1%nat ∧
  match st_future s with
  | PENDING => st_worker s = None ∧ length (work_queue (st_executor s)) = 1%nat
  | RUNNING => is_Some (st_worker s) ∧ work_queue (st_executor s) = []
  | FINISHED _ => st_worker s = None ∧ work_queue (st_executor s) = []
  end ∧
  match st_pc s with
  | Stopped => st_future s = FINISHED None
  | Failed e => st_future s = FINISHED (Some e)
  | _ => True
  end.

(** The consumer never saw the future pending: it left the loop only after
    the worker was done and the queue drained. *)
Definition drained {Table : Type} (s : State Table) : Prop :=
  st_future s ≠ PENDING ∧
  match st_pc s with
  | AtRunning | AtGet => True
  | AtEmpty => result (st_future s) ≠ Blocks
  | AtResult | Stopped | Failed _ =>
      result (st_future s) ≠ Blocks ∧ items (st_queue s) = []
  end.

(** A bounded queue holds no more than its capacity. *)
Definition within_capacity (q : Queue) : Prop :=
  0 < maxsize q → Z.of_nat (length (items q)) ≤ maxsize q.

(** The statements a body has still to run. *)
Fixpoint statements (p : Prog) : nat :=
  match p with
  | PWrite _ k => S (statements k)
  | PReturn => 1
  | PRaise _ => 1
  end.

(** A bound on the rounds an iteration still needs once the worker has
    taken the task: it counts the statements the worker has left, the
    chunks on the queue and the consumer's way to the next loop test. *)
Definition rounds_left {Table : Type} (s : State Table) : nat :=
  (4 * match st_worker s with
       | Some p => statements p
       | None => 0
       end
   + 3 * length (items (st_queue s))
   + match st_pc s with
     | AtRunning => 3
     | AtEmpty => 2
     | AtGet =>
         if Queue_empty (st_queue s) && negb (running (st_future s)) then 4 else 1
     | AtResult => 1
     | Stopped => 0
     | Failed _ => 0
     end)%nat.

(** The schedule of [n] rounds in which the worker and the consumer take
    turns. *)
Fixpoint alternate (n : nat) : list Thread :=
  match n with
  | O => []
  | S n' => Worker :: Consumer :: alternate n'
  end.

(** [n] calls of [q.get] in a row, stopping at the first [Empty]: the
    entries taken, oldest first, and the queue they leave. *)
Fixpoint get_n (n : nat) (q : Queue) : list bytes * Queue :=
  match n with
  | O => ([], q)
  | S n' =>
      match Queue_get q with
      | Some (b, q') => let '(bs, q'') := get_n n' q' in (b :: bs, q'')
      | None => ([], q)
      end
  end.

(** The whole output has room on the queue: the queue is unbounded, or it
    can hold every chunk of the task at once. *)
Definition output_fits {Table : Type} (s : State Table) : Prop :=
  maxsize (st_queue s) ≤ 0 ∨ Z.of_nat (length (in_flight s)) ≤ maxsize (st_queue s).

(** A bound on the rounds an iteration still needs from any point, when the
    worker never has to wait for room: as [rounds_left], counting also the
    tasks not yet taken, and the queue only while the consumer is in the
    loop. *)
Definition rounds_bound {Table : Type} (s : State Table) : nat :=
  (4 * (match st_worker s with
        | Some p => statements p
        | None => 0
        end
        + sum_list_with (fun w => S (statements (task_body w)))
                        (work_queue (st_executor s)))
   + match st_pc s with
     | AtRunning | AtEmpty | AtGet => 3 * length (items (st_queue s))
     | AtResult | Stopped | Failed _ => 0
     end
   + match st_pc s with
     | AtRunning => 3
     | AtEmpty => 2
     | AtGet =>
         if Queue_empty (st_queue s) && negb (running (st_future s)) then 4 else 1
     | AtResult => 1
     | Stopped => 0
     | Failed _ => 0
     end)%nat.

(** ** Concrete exporters and schedules *)

(** A table given as its already encoded rows. *)
Definition Rows : Type := list bytes.

(** An exporter that writes one chunk per row. *)
Definition line_exporter : Exporter Rows :=
  mkExporter (Some "txt") (Some "text/plain")
             (fun table _ _ => script table PReturn).

(** An exporter that writes one chunk per row and then fails. *)
Definition failing_exporter : Exporter Rows :=
  mkExporter (Some "txt") (Some "text/plain")
             (fun table _ _ => script table (PRaise (Exc "OSError" "disk full"))).

(** [s.encode()] for an ASCII string. *)
Definition encode (s : string) : bytes :=
  map Ascii.byte_of_ascii (String.list_ascii_of_string s).

(** An exporter whose output is its two hints, one chunk each. *)
Definition hint_exporter : Exporter Rows :=
  mkExporter None None
             (fun _ filename_hint encoding_hint =>
                PWrite (encode (py_str filename_hint))
                  (PWrite (encode encoding_hint) PReturn)).

(** The consumer evaluates the whole loop condition of line 75 before the
    worker thread has taken the task. *)
Definition early_poll : list Thread := [Consumer; Consumer].

(** The worker thread takes the task before the consumer's first test. *)
Definition worker_first (sched : list Thread) : list Thread := Worker :: sched.

(** Case analysis on a move: one goal per branch of the step functions
    that produces a state. *)
Ltac step_cases H :=
  match type of H with
  | step ?t ?s = Some ?s' =>
      destruct s as [[n l] [mw nt wq] f w pc y];
      destruct t; unfold step, worker_step, consumer_step, goto in H;
      cbn [st_queue st_executor st_future st_worker st_pc st_yielded
           num_threads max_workers work_queue] in H;
      repeat case_match; simplify_eq
  end.

(** * Properties *)

(** ** Sinks run sequentially *)

Lemma chunks_of_script (bs : list bytes) (last : Prog) :
  chunks_of (script bs last) = bs ++ chunks_of last.
Proof. induction bs as [|b bs IH]; simpl; [done | by rewrite IH]. Qed.

Lemma ending_of_script (bs : list bytes) (last : Prog) :
  ending_of (script bs last) = ending_of last.
Proof. induction bs as [|b bs IH]; simpl; done. Qed.

(** A stream whose position is at its end grows by the chunk. *)
Lemma BytesIO_write_at_end (fo : BytesIO) (b : bytes) :
  pos fo = length (buf fo) →
  BytesIO_write fo b = mkBytesIO (buf fo ++ b) (length (buf fo ++ b)).
Proof.
  intros Hpos. unfold BytesIO_write. rewrite Hpos, Nat.sub_diag. simpl.
  rewrite app_nil_r, take_ge, drop_ge, app_nil_r, length_app by lia.
  reflexivity.
Qed.

Lemma exec_BytesIO (p : Prog) (fo : BytesIO) :
  pos fo = length (buf fo) →
  exec p fo =
  (mkBytesIO (buf fo ++ concat (chunks_of p))
             (length (buf fo ++ concat (chunks_of p))),
   ending_of p).
Proof.
  revert fo. induction p as [b k IH| |e]; intros [bf ps] Hpos; simpl in *.
  - change (write (mkBytesIO bf ps) b) with (Some (BytesIO_write (mkBytesIO bf ps) b)).
    rewrite BytesIO_write_at_end by done. simpl.
    rewrite IH by done. simpl. by rewrite <- app_assoc.
  - by rewrite app_nil_r, Hpos.
  - by rewrite app_nil_r, Hpos.
Qed.

Lemma exec_Recorder (p : Prog) (fo : Recorder) :
  exec p fo = (mkRecorder (written fo ++ chunks_of p), ending_of p).
Proof.
  revert fo. induction p as [b k IH| |e]; intros [log]; simpl.
  - change (write (mkRecorder log) b) with (Some (mkRecorder (log ++ [b]))).
    rewrite IH. simpl. by rewrite <- app_assoc.
  - by rewrite app_nil_r.
  - by rewrite app_nil_r.
Qed.

Lemma dumps_unfold {Table : Type} (self : Exporter Table) (table : Table)
    (filename_hint : option (option string)) (encoding_hint : option string) :
  let p := dump self table (kw None filename_hint) (kw "utf-8" encoding_hint) in
  dumps self table filename_hint encoding_hint =
  match ending_of p with
  | Returns _ => Returns (concat (chunks_of p))
  | Raises e => Raises e
  | Blocks => Blocks
  end.
Proof.
  intros p. unfold dumps, call_dump. fold p.
  rewrite exec_BytesIO by done. simpl.
  destruct (ending_of p); done.
Qed.

(** C4. [dumps] returns the concatenation, in write order, of the chunks
    [dump] writes to a file-like object: run [dump] against a sink that
    records its [write] calls; when that call returns, [dumps] returns the
    recorded chunks joined together, and when it raises, [dumps] raises the
    same exception. *)
Theorem dumps_is_concatenation_of_dump_writes {Table : Type}
    (self : Exporter Table) (table : Table)
    (filename_hint : option (option string)) (encoding_hint : option string) :
  dumps self table filename_hint encoding_hint =
  match call_dump self table (mkRecorder [])
                  (kw None filename_hint) (kw "utf-8" encoding_hint) with
  | (fo, Returns _) => Returns (concat (written fo))
  | (_, Raises e) => Raises e
  | (_, Blocks) => Blocks
  end.
Proof.
  rewrite dumps_unfold. unfold call_dump. rewrite exec_Recorder. simpl.
  destruct (ending_of _); done.
Qed.

(** C6. On the base class, [dump] raises [NotImplementedError] whatever its
    arguments, and the sink it was given is left as it was: no [write]
    call is made. *)
Theorem base_dump_raises_NotImplementedError {Table S : Type} `{Sink S}
    (table : Table) (fo : S) (filename_hint : option string) (encoding_hint : string) :
  call_dump (base_Exporter Table) table fo filename_hint encoding_hint =
    (fo, Raises (NotImplementedError "Subclasses should implement this method."))
  ∧ chunks_of (dump (base_Exporter Table) table filename_hint encoding_hint) = [].
Proof. split; reflexivity. Qed.

(** ** QueueWriter *)

Lemma Queue_put_Some (q q' : Queue) (b : bytes) :
  Queue_put q b = Some q' ↔
  q' = mkQueue (maxsize q) (items q ++ [b]) ∧
  (maxsize q ≤ 0 ∨ Z.of_nat (length (items q)) < maxsize q).
Proof.
  unfold Queue_put, Queue_full.
  destruct (Z.ltb_spec 0 (maxsize q)),
           (Z.leb_spec (maxsize q) (Z.of_nat (length (items q))));
    simpl; split; intros Hx.
  all: try discriminate Hx.
  all: try (injection Hx as <-; split; [reflexivity | lia]).
  all: destruct Hx as [-> Hx]; first [reflexivity | lia].
Qed.

(** C7. Calling [QueueWriter(q).write] on [b1 .. bn] in order returns from
    every call exactly when the queue has room for them (it is unbounded,
    or [n] more entries fit, or [n = 0]), and then the queue holds its old
    entries followed by [b1 .. bn], unchanged and in that order. *)
Theorem QueueWriter_write_enqueues_in_order (q : Queue) (bs : list bytes)
    (fo : QueueWriter) :
  write_all (mkQueueWriter q) bs = Some fo ↔
  fo = mkQueueWriter (mkQueue (maxsize q) (items q ++ bs)) ∧
  (bs = [] ∨ maxsize q ≤ 0
   ∨ Z.of_nat (length (items q) + length bs) ≤ maxsize q).
Proof.
  revert q. induction bs as [|b bs IH]; intros [n l]; simpl.
  - rewrite app_nil_r. split; [intros [= <-]; auto | intros [-> _]; done].
  - change (write (mkQueueWriter (mkQueue n l)) b)
      with (mkQueueWriter <$> Queue_put (mkQueue n l) b).
    destruct (Queue_put (mkQueue n l) b) as [q'|] eqn:Hput; simpl.
    + apply Queue_put_Some in Hput as [-> Hroom]. simpl in *.
      rewrite IH. simpl. rewrite <- app_assoc. simpl. rewrite length_app. simpl.
      split; intros [-> Hfit]; (split; [done|]).
      * right. destruct Hfit as [->|Hfit]; simpl; lia.
      * destruct bs as [|b' bs]; [by left | right].
        destruct Hfit as [?|Hfit]; [done|]. simpl in *. lia.
    + split; [done|]. intros [_ Hfit]. exfalso.
      assert (Queue_put (mkQueue n l) b = None → 0 < n ∧ n ≤ Z.of_nat (length l)) as Hfull.
      { unfold Queue_put, Queue_full. simpl.
        destruct (0 <? n) eqn:?, (n <=? Z.of_nat (length l)) eqn:?; simpl; try done; lia. }
      destruct (Hfull Hput). destruct Hfit as [?|Hfit]; [done|]. simpl in *. lia.
Qed.

(** ** The two threads of dump_iter *)

Section Threads.

Context {Table : Type}.
Implicit Types (s : State Table) (t : Thread) (sched : list Thread).

Lemma run_app sched1 sched2 s :
  run (sched1 ++ sched2) s = run sched2 (run sched1 s).
Proof. revert s. induction sched1 as [|t sched1 IH]; intros s; simpl; [done | apply IH]. Qed.

(** A property kept by every move holds along every schedule. *)
Lemma run_invariant (P : State Table → Prop) :
  (∀ t s s', P s → step t s = Some s' → P s') →
  ∀ sched s, P s → P (run sched s).
Proof.
  intros Hstep sched. induction sched as [|t sched IH]; intros s Hs; simpl; [done|].
  apply IH. destruct (step t s) as [s'|] eqn:Hs'; simpl; eauto.
Qed.

Lemma write_QueueWriter_Some (q : Queue) (b : bytes) (fo : QueueWriter) :
  write (mkQueueWriter q) b = Some fo →
  queue fo = mkQueue (maxsize q) (items q ++ [b]) ∧
  (maxsize q ≤ 0 ∨ Z.of_nat (length (items q)) < maxsize q).
Proof.
  change (write (mkQueueWriter q) b) with (mkQueueWriter <$> Queue_put q b).
  destruct (Queue_put q b) as [q'|] eqn:Hput; simpl; [|done].
  intros [= <-]. by apply Queue_put_Some in Hput.
Qed.

(** No move loses, repeats or reorders a chunk. *)
Lemma step_in_flight t s s' : step t s = Some s' → in_flight s' = in_flight s.
Proof.
  intros H. step_cases H; unfold in_flight, pending_chunks; simpl; try done.
  - match goal with H : write _ _ = Some _ |- _ =>
      apply write_QueueWriter_Some in H as [-> _] end.
    simpl. by rewrite <- !app_assoc.
  - unfold Queue_get in *. simpl in *. destruct l; simplify_eq. simpl.
    by rewrite <- !app_assoc.
Qed.

Lemma run_in_flight sched s : in_flight (run sched s) = in_flight s.
Proof.
  revert s. induction sched as [|t sched IH]; intros s; simpl; [done|].
  rewrite IH. destruct (step t s) as [s'|] eqn:Hs'; simpl; [|done].
  by apply step_in_flight in Hs'.
Qed.

Lemma in_flight_dump_iter (self : Exporter Table) (table : Table)
    (buffer_size : option Z) (filename_hint : option (option string))
    (encoding_hint : option string) :
  in_flight (dump_iter self table buffer_size filename_hint encoding_hint) =
  chunks_of (dump self table (kw None filename_hint) (kw "utf-8" encoding_hint)).
Proof. unfold in_flight, pending_chunks. simpl. by rewrite app_nil_r. Qed.

(** The state [dump_iter] builds is consistent, and moves keep it so. *)
Lemma consistent_dump_iter (self : Exporter Table) (table : Table)
    (buffer_size : option Z) (filename_hint : option (option string))
    (encoding_hint : option string) :
  consistent (dump_iter self table buffer_size filename_hint encoding_hint).
Proof. repeat split. Qed.

Lemma step_consistent t s s' : consistent s → step t s = Some s' → consistent s'.
Proof.
  intros (Hmax & Hnum & Hfut & Hpc) H.
  step_cases H; unfold consistent in *; simpl in *; simplify_eq;
    repeat split; try done; try (by eexists); destruct_and?; simplify_eq; try done.
  all: try (by destruct f; destruct_and?; simplify_eq).
  all: try (by match goal with H : length ?l = 0%nat |- _ => destruct l end).
  all: match goal with H : result (FINISHED ?x) = _ |- _ =>
         destruct x; simpl in H; by simplify_eq end.
Qed.

Lemma run_consistent sched s : consistent s → consistent (run sched s).
Proof. apply run_invariant. intros t s1 s2. apply step_consistent. Qed.

(** The outcome the future will hold never changes. *)
Lemma step_destined t s s' :
  consistent s → step t s = Some s' → destined s' = destined s.
Proof.
  intros (Hmax & Hnum & Hfut & Hpc) H.
  step_cases H; unfold destined in *; simpl in *; simplify_eq; try done.
  all: by destruct_and?; simplify_eq.
Qed.

Lemma run_destined sched s : consistent s → destined (run sched s) = destined s.
Proof.
  revert s. induction sched as [|t sched IH]; intros s Hs; simpl; [done|].
  destruct (step t s) as [s'|] eqn:Hs'; simpl; [|by apply IH].
  rewrite IH by (by eapply step_consistent). by eapply step_destined.
Qed.

(** When the iteration is over, it ended the way the future did. *)
Lemma outcome_destined s (c : Completion unit) :
  consistent s → outcome s = Some c → c = destined s.
Proof.
  intros (_ & _ & _ & Hpc). unfold outcome, destined.
  destruct (st_pc s); intros [= <-]; rewrite Hpc; done.
Qed.

(** Once the worker has taken the task, the consumer leaves the loop only
    with the future finished and the queue drained. *)
Lemma step_drained t s s' :
  consistent s → drained s → step t s = Some s' → drained s'.
Proof.
  intros (Hmax & Hnum & Hfut & Hpc) [Hstarted Hloop] H.
  step_cases H; unfold drained in *; simpl in *; simplify_eq;
    destruct_and?; simplify_eq; try done.
  all: try (split; [done|]).
  all: try (match goal with H : Queue_empty _ = _ |- _ =>
              unfold Queue_empty in H; simpl in H end).
  all: try (match goal with H : Queue_get _ = _ |- _ =>
              unfold Queue_get in H; simpl in H end).
  all: repeat case_match; simplify_eq; try done.
  all: try (by destruct f as [| |[?|]]; simpl in *; destruct_and?; simplify_eq).
  - by destruct exception.
  - split; [done|]. by destruct l.
  - split; [done|]. by destruct l.
Qed.

Lemma run_drained sched s : consistent s → drained s → drained (run sched s).
Proof.
  intros Hc Hd.
  cut (consistent (run sched s) ∧ drained (run sched s)); [by intros []|].
  apply (run_invariant (λ s, consistent s ∧ drained s)); [|done].
  intros t s1 s2 [Hc1 Hd1] Hs. split.
  - by eapply step_consistent.
  - by eapply step_drained.
Qed.

Lemma drained_terminated s :
  consistent s → drained s → terminated s = true → st_yielded s = in_flight s.
Proof.
  intros (_ & _ & Hfut & Hpc) [_ Hloop] Hterm.
  unfold terminated, outcome, in_flight, pending_chunks in *.
  destruct (st_pc s); try done; rewrite Hpc in Hfut;
    destruct Hfut as [-> ->], Hloop as [_ ->]; simpl; by rewrite app_nil_r.
Qed.

(** The queue never changes its capacity, and a bounded queue never holds
    more than its capacity. *)
Lemma step_maxsize t s s' :
  step t s = Some s' → maxsize (st_queue s') = maxsize (st_queue s).
Proof.
  intros H. step_cases H; simpl; try done.
  - match goal with H : write _ _ = Some _ |- _ =>
      apply write_QueueWriter_Some in H as [-> _] end. done.
  - unfold Queue_get in *. simpl in *. by destruct l; simplify_eq.
Qed.

Lemma step_within_capacity t s s' :
  within_capacity (st_queue s) → step t s = Some s' → within_capacity (st_queue s').
Proof.
  unfold within_capacity. intros Hcap H. step_cases H; simpl in *; try done.
  - match goal with H : write _ _ = Some _ |- _ =>
      apply write_QueueWriter_Some in H as [-> Hroom] end.
    simpl in *. rewrite length_app. simpl. lia.
  - unfold Queue_get in *. simpl in *. destruct l; simplify_eq. simpl in *. lia.
Qed.

Lemma run_maxsize sched s : maxsize (st_queue (run sched s)) = maxsize (st_queue s).
Proof.
  revert s. induction sched as [|t sched IH]; intros s; simpl; [done|].
  rewrite IH. destruct (step t s) as [s'|] eqn:Hs'; simpl; [|done].
  by eapply step_maxsize.
Qed.

Lemma run_within_capacity sched s :
  within_capacity (st_queue s) → within_capacity (st_queue (run sched s)).
Proof.
  apply (run_invariant (λ s, within_capacity (st_queue s))).
  intros t s1 s2. apply step_within_capacity.
Qed.

(** The pool and its single task. *)
Lemma step_executor t s s' :
  step t s = Some s' →
  max_workers (st_executor s') = max_workers (st_executor s) ∧
  num_threads (st_executor s') = num_threads (st_executor s).
Proof. intros H. step_cases H; done. Qed.

Lemma submit_num_threads (ex : ThreadPoolExecutor Table) (w : WorkItem Table) :
  (num_threads ex ≤ max_workers ex)%nat →
  (num_threads (submit ex w).1 ≤ max_workers (submit ex w).1)%nat.
Proof.
  intros Hle. simpl. destruct (Nat.ltb_spec (num_threads ex) (max_workers ex)); lia.
Qed.

(** Whatever the schedule, the chunks yielded so far are an initial part of
    what [dump] writes: none is altered, repeated or out of order. *)
Lemma yielded_is_prefix (self : Exporter Table) (table : Table)
    (buffer_size : option Z) (filename_hint : option (option string))
    (encoding_hint : option string) sched :
  st_yielded (run sched (dump_iter self table buffer_size filename_hint encoding_hint))
  `prefix_of`
  chunks_of (dump self table (kw None filename_hint) (kw "utf-8" encoding_hint)).
Proof.
  rewrite <- (in_flight_dump_iter self table buffer_size), <- (run_in_flight sched).
  unfold in_flight. by eexists.
Qed.

(** Whatever the schedule, an iteration that is over ended the way [dump]
    ends: with its exception if it raises one, without any otherwise. *)
Lemma outcome_is_ending_of_dump (self : Exporter Table) (table : Table)
    (buffer_size : option Z) (filename_hint : option (option string))
    (encoding_hint : option string) sched (c : Completion unit) :
  outcome (run sched (dump_iter self table buffer_size filename_hint encoding_hint))
    = Some c →
  c = ending_of (dump self table (kw None filename_hint) (kw "utf-8" encoding_hint)).
Proof.
  intros Hc. apply outcome_destined in Hc.
  - rewrite Hc, run_destined; [done | apply consistent_dump_iter].
  - apply run_consistent, consistent_dump_iter.
Qed.

(** When the worker thread takes the task before the consumer first tests
    the loop condition, an iteration that is over has yielded every chunk
    of [dump], and their concatenation is what [dumps] returns. *)
Lemma worker_first_yields_everything (self : Exporter Table) (table : Table)
    (buffer_size : option Z) (filename_hint : option (option string))
    (encoding_hint : option string) sched :
  let s := run (worker_first sched)
               (dump_iter self table buffer_size filename_hint encoding_hint) in
  terminated s = true →
  st_yielded s =
    chunks_of (dump self table (kw None filename_hint) (kw "utf-8" encoding_hint))
  ∧ (outcome s = Some (Returns tt) →
     dumps self table filename_hint encoding_hint = Returns (concat (st_yielded s))).
Proof.
  intros s Hterm.
  set (s0 := dump_iter self table buffer_size filename_hint encoding_hint) in *.
  assert (consistent s0) as Hc0 by apply consistent_dump_iter.
  assert (st_yielded s = chunks_of
            (dump self table (kw None filename_hint) (kw "utf-8" encoding_hint))) as Hy.
  { rewrite <- (in_flight_dump_iter self table buffer_size).
    fold s0. rewrite <- (run_in_flight (worker_first sched) s0).
    apply drained_terminated; [by apply run_consistent | | done].
    unfold worker_first. simpl run.
    apply run_drained; [| by split].
    change (consistent (run [Worker] s0)). by apply run_consistent. }
  split; [done|]. intros Hout.
  apply outcome_is_ending_of_dump in Hout.
  rewrite dumps_unfold. simpl. rewrite <- Hout, Hy. done.
Qed.

(** With the consumer in [future.result()] and nothing yielded, a task
    that writes more chunks than a bounded queue holds never finishes. *)
Lemma early_exit_never_terminates s (N : Z) sched :
  consistent s → within_capacity (st_queue s) →
  maxsize (st_queue s) = N → 0 < N →
  N < Z.of_nat (length (in_flight s)) →
  st_pc s = AtResult → st_yielded s = [] →
  terminated (run sched s) = false.
Proof.
  intros Hc Hcap Hmax HN Hlen Hpc Hy.
  set (P := λ s : State Table,
         consistent s ∧ within_capacity (st_queue s) ∧ maxsize (st_queue s) = N ∧
         N < Z.of_nat (length (in_flight s)) ∧ st_pc s = AtResult ∧ st_yielded s = []).
  cut (P (run sched s)).
  { intros (_ & _ & _ & _ & Hpc' & _). unfold terminated, outcome. by rewrite Hpc'. }
  apply run_invariant; [|done]. clear -HN.
  intros t s s' (Hc & Hcap & Hmax & Hlen & Hpc & Hy) Hstep.
  assert (consistent s') as Hc' by (by eapply step_consistent).
  assert (within_capacity (st_queue s')) as Hcap' by (by eapply step_within_capacity).
  assert (maxsize (st_queue s') = N) as Hmax' by (by erewrite step_maxsize).
  assert (in_flight s' = in_flight s) as Hfl by (by eapply step_in_flight).
  assert (step t s = Some s' → t = Worker) as Ht.
  { destruct t; [done|]. intros _. exfalso. simpl in Hstep.
    unfold consumer_step in Hstep. rewrite Hpc in Hstep.
    destruct Hc as (_ & _ & Hfut & _).
    unfold in_flight, pending_chunks, within_capacity in *.
    destruct (st_future s) as [| |x]; simpl in Hstep; try done.
    destruct Hfut as [Hw Hq]. rewrite Hy, Hw, Hq in Hlen. simpl in Hlen.
    rewrite app_nil_r in Hlen. lia. }
  rewrite (Ht Hstep) in Hstep. clear Ht.
  split; [done|]. split; [done|]. split; [done|].
  split; [by rewrite Hfl|].
  clear -Hstep Hpc Hy. simpl in Hstep. unfold worker_step in Hstep.
  destruct s as [q ex f w pc y]. simpl in *.
  repeat case_match; simplify_eq; done.
Qed.

(** A finished iteration stays as it is. *)
Lemma terminated_step t s :
  consistent s → terminated s = true → step t s = None.
Proof.
  intros (_ & Hnum & Hfut & Hpc) Hterm.
  destruct s as [[n l] [mw nt wq] f w pc y]. simpl in *.
  unfold terminated, outcome in Hterm. simpl in Hterm.
  destruct pc; try done; subst f; destruct Hfut as [-> ->];
    destruct t; simpl; unfold worker_step; simpl; by rewrite Hnum.
Qed.

Lemma terminated_run sched s :
  consistent s → terminated s = true → run sched s = s.
Proof.
  intros Hc Hterm. induction sched as [|t sched IH]; simpl; [done|].
  by rewrite terminated_step.
Qed.

(** Once the worker has taken the task, a round in which both threads get
    a turn brings the iteration closer to its end. *)
Lemma round_makes_progress s :
  consistent s → drained s → terminated s = false →
  (rounds_left (run [Worker; Consumer] s) < rounds_left s)%nat.
Proof.
  intros (Hmax & Hnum & Hfut & Hpc) [Hstarted Hloop] Hterm.
  destruct s as [[n l] [mw nt wq] f w pc y].
  unfold terminated, outcome in Hterm. simpl in *. subst mw nt.
  destruct f as [| |x]; [done| |]; destruct Hfut as [Hw ->].
  - destruct Hw as [p ->].
    destruct pc; simpl in Hloop; try done; try (by destruct Hloop).
    all: destruct p as [b k| |e]; unfold worker_step, consumer_step, rounds_left;
      simpl.
    all: try (change (write (mkQueueWriter (mkQueue n l)) b)
                with (mkQueueWriter <$> Queue_put (mkQueue n l) b);
              unfold Queue_put, Queue_full; simpl;
              destruct (Z.ltb_spec 0 n), (Z.leb_spec n (Z.of_nat (length l)));
              simpl).
    all: destruct l as [|c l]; simpl in *; try lia.
    all: rewrite ?length_app; simpl; lia.
  - subst w.
    destruct pc; simpl in Hloop; try done.
    all: unfold worker_step, consumer_step, rounds_left; simpl.
    all: destruct l as [|c l]; simpl in *; try lia.
    all: try (by destruct Hloop).
    all: destruct x; simpl; lia.
Qed.

Lemma alternate_terminates (n : nat) s :
  consistent s → drained s → (rounds_left s ≤ n)%nat →
  terminated (run (alternate n) s) = true.
Proof.
  revert s. induction n as [|n IH]; intros s Hc Hd Hn.
  - simpl. unfold rounds_left, terminated, outcome in *.
    destruct (st_pc s); try done; try lia.
    destruct (_ && _); lia.
  - destruct (terminated s) eqn:Hterm.
    + by rewrite terminated_run.
    + change (alternate (S n)) with ([Worker; Consumer] ++ alternate n).
      rewrite run_app. apply IH.
      * by apply run_consistent.
      * by apply run_drained.
      * pose proof (round_makes_progress s Hc Hd Hterm). lia.
Qed.

(** When the worker thread takes the task before the consumer first tests
    the loop condition, the iteration can always be brought to its end:
    from any point on, letting the two threads take turns finishes it. *)
Lemma worker_first_can_finish (self : Exporter Table) (table : Table)
    (buffer_size : option Z) (filename_hint : option (option string))
    (encoding_hint : option string) sched :
  let s := run (worker_first sched)
               (dump_iter self table buffer_size filename_hint encoding_hint) in
  terminated (run (alternate (rounds_left s)) s) = true.
Proof.
  intros s.
  set (s0 := dump_iter self table buffer_size filename_hint encoding_hint) in *.
  assert (consistent s0) as Hc0 by apply consistent_dump_iter.
  apply alternate_terminates; [by apply run_consistent | | done].
  unfold s, worker_first. simpl run.
  apply run_drained; [| by split].
  change (consistent (run [Worker] s0)). by apply run_consistent.
Qed.

End Threads.

(** ** The claims about dump_iter *)

(** C1. With [line_exporter] on a one-row table and the default buffer
    size, the schedule in which the consumer tests the loop condition
    before the worker thread has taken the task ends the iteration
    normally with nothing yielded: the one chunk [dump] writes stays on the
    queue, while [dumps] returns it. *)
Theorem early_poll_loses_every_chunk :
  let s := run (early_poll ++ [Worker; Worker; Worker; Consumer])
               (dump_iter line_exporter [[Byte.x61]] None None None) in
  outcome s = Some (Returns tt)
  ∧ st_yielded s = []
  ∧ items (st_queue s) = [[Byte.x61]]
  ∧ chunks_of (dump line_exporter [[Byte.x61]] None "utf-8") = [[Byte.x61]]
  ∧ dumps line_exporter [[Byte.x61]] None None = Returns [Byte.x61].
Proof. vm_compute. repeat split. Qed.

(** C2. With [failing_exporter] on a one-row table, the same schedule
    re-raises the exception of [dump] while the chunk written before it is
    still on the queue: it was enqueued and is never yielded. *)
Theorem early_poll_raises_before_enqueued_chunks :
  let s := run (early_poll ++ [Worker; Worker; Worker; Consumer])
               (dump_iter failing_exporter [[Byte.x61]] None None None) in
  outcome s = Some (Raises (Exc "OSError" "disk full"))
  ∧ ending_of (dump failing_exporter [[Byte.x61]] None "utf-8")
    = Raises (Exc "OSError" "disk full")
  ∧ st_yielded s = []
  ∧ items (st_queue s) = [[Byte.x61]].
Proof. vm_compute. repeat split. Qed.

(** C5. With [line_exporter] on a two-row table and [buffer_size=1], once
    the consumer has tested the loop condition before the worker thread
    took the task, no continuation of the schedule ends the iteration: the
    consumer waits in [future.result()] and the worker in [queue.put], and
    after two moves of the worker neither thread can move. *)
Theorem early_poll_deadlocks :
  let s0 := dump_iter line_exporter [[Byte.x61]; [Byte.x62]] (Some 1) None None in
  (∀ more : list Thread, terminated (run (early_poll ++ more) s0) = false)
  ∧ deadlocked (run (early_poll ++ [Worker; Worker]) s0) = true
  ∧ ending_of (dump line_exporter [[Byte.x61]; [Byte.x62]] None "utf-8") = Returns tt.
Proof.
  intros s0. split; [|by vm_compute].
  intros more. rewrite run_app.
  apply (early_exit_never_terminates _ 1).
  - apply run_consistent, consistent_dump_iter.
  - apply run_within_capacity. intros _. simpl. lia.
  - by rewrite run_maxsize.
  - lia.
  - rewrite run_in_flight. vm_compute. done.
  - reflexivity.
  - reflexivity.
Qed.

(** For a buffer size [N ≥ 1], along every schedule the queue of
    [dump_iter] holds at most [N] chunks, and when it holds [N] a worker
    that is at a [write] cannot move: it waits in [put] until the consumer
    has taken a chunk. *)
Theorem queue_holds_at_most_buffer_size {Table : Type}
    (self : Exporter Table) (table : Table) (N : Z)
    (filename_hint : option (option string)) (encoding_hint : option string)
    (sched : list Thread) :
  0 < N →
  let s := run sched (dump_iter self table (Some N) filename_hint encoding_hint) in
  Z.of_nat (length (items (st_queue s))) ≤ N
  ∧ (Z.of_nat (length (items (st_queue s))) = N →
     ∀ b k, st_worker s = Some (PWrite b k) → worker_step s = None).
Proof.
  intros HN s.
  assert (maxsize (st_queue s) = N) as Hmax by (unfold s; by rewrite run_maxsize).
  assert (within_capacity (st_queue s)) as Hcap.
  { apply run_within_capacity. intros _. simpl. lia. }
  unfold within_capacity in Hcap. rewrite Hmax in Hcap.
  split; [by apply Hcap|].
  intros Hfull b k Hw. unfold worker_step. rewrite Hw.
  destruct (num_threads (st_executor s) =? 0)%nat; [done|].
  change (write (mkQueueWriter (st_queue s)) b)
    with (mkQueueWriter <$> Queue_put (st_queue s) b).
  unfold Queue_put, Queue_full. rewrite Hmax, Hfull.
  destruct (Z.ltb_spec 0 N), (Z.leb_spec N N); simpl; try done; lia.
Qed.

(** C8. Along every schedule the pool of [dump_iter] has [max_workers = 1]
    and one thread, and it was given a single task, the [_dump_iter] call:
    the task is waiting on the work queue or is the one the worker is in,
    never both, and no second task exists. *)
Theorem single_worker_single_task {Table : Type}
    (self : Exporter Table) (table : Table) (buffer_size : option Z)
    (filename_hint : option (option string)) (encoding_hint : option string)
    (sched : list Thread) :
  let s0 := dump_iter self table buffer_size filename_hint encoding_hint in
  let s := run sched s0 in
  work_queue (st_executor s0)
    = [mkWorkItem self table (kw None filename_hint) (kw "utf-8" encoding_hint)]
  ∧ max_workers (st_executor s) = 1%nat
  ∧ num_threads (st_executor s) = 1%nat
  ∧ (length (work_queue (st_executor s))
     + match st_worker s with Some _ => 1 | None => 0 end ≤ 1)%nat.
Proof.
  intros s0 s. split; [reflexivity|].
  destruct (run_consistent sched s0 (consistent_dump_iter _ _ _ _ _))
    as (Hmax & Hnum & Hfut & _).
  fold s in Hmax, Hnum, Hfut. repeat split; [done..|].
  destruct (st_future s); destruct Hfut as [Hw Hq].
  - rewrite Hw, Hq. done.
  - destruct Hw as [p ->]. rewrite Hq. done.
  - rewrite Hw, Hq. simpl. lia.
Qed.

(** The bound at [buffer_size=1], a two-row table and a schedule that fills
    the queue. *)
Lemma queue_holds_at_most_buffer_size_witness :
  0 < 1 ∧
  let s := run [Worker; Worker; Worker; Consumer]
               (dump_iter line_exporter [[Byte.x61]; [Byte.x62]] (Some 1) None None) in
  Z.of_nat (length (items (st_queue s))) ≤ 1
  ∧ (Z.of_nat (length (items (st_queue s))) = 1 →
     ∀ b k, st_worker s = Some (PWrite b k) → worker_step s = None).
Proof.
  split; [lia|].
  apply (queue_holds_at_most_buffer_size
           line_exporter [[Byte.x61]; [Byte.x62]] 1 None None
           [Worker; Worker; Worker; Consumer]).
  lia.
Defined.

(** C3. With [line_exporter] on a one-row table and [buffer_size=0], after
    the worker took the task and wrote its chunk the queue holds one chunk:
    more than the [buffer_size] chunks the docstring of [dump_iter] says
    the buffer stores ("store up to N write() message in buffer"). *)
Lemma buffer_size_zero_is_unbounded :
  ¬ (Z.of_nat (length (items (st_queue
        (run [Worker; Worker]
             (dump_iter line_exporter [[Byte.x61]] (Some 0) None None))))) ≤ 0).
Proof. vm_compute. intros H. apply H. reflexivity. Qed.

(** ** Hints and the HTTP response *)

(** C9. [dumps], [_dump_iter] and [dump_iter] hand the hints to [dump] as
    they got them, [None] and ["utf-8"] standing in for a hint that was not
    passed: [dumps] is determined by the body [dump] has at exactly these
    arguments, [_dump_iter] is that body run against the queue writer, and
    the one task [dump_iter] submits carries them and makes the worker run
    that body. *)
Theorem hints_reach_dump_unchanged {Table : Type}
    (self : Exporter Table) (table : Table) (q : Queue) (buffer_size : option Z)
    (filename_hint : option (option string)) (encoding_hint : option string) :
  let filename_hint' := match filename_hint with Some h => h | None => None end in
  let encoding_hint' := match encoding_hint with Some h => h | None => "utf-8" end in
  let body := dump self table filename_hint' encoding_hint' in
  let s0 := dump_iter self table buffer_size filename_hint encoding_hint in
  dumps self table filename_hint encoding_hint
    = match ending_of body with
      | Returns _ => Returns (concat (chunks_of body))
      | Raises e => Raises e
      | Blocks => Blocks
      end
  ∧ _dump_iter self q table filename_hint encoding_hint
    = exec body (mkQueueWriter q)
  ∧ work_queue (st_executor s0)
    = [mkWorkItem self table filename_hint' encoding_hint']
  ∧ worker_step s0
    = Some (mkState (st_queue s0) (mkExecutor 1 1 []) RUNNING (Some body)
                    AtRunning []).
Proof.
  intros fh eh body s0. split; [|repeat split].
  apply (dumps_unfold self table filename_hint encoding_hint).
Qed.

(** C10. The response of [dump_http_reponse] streams the generator of
    [dump_iter], has the exporter's [content_type], and has a
    Content-Disposition header exactly when [filename] is a non-empty
    string; the header is then [attachment; filename=] followed, between
    double quotes, by the filename, a dot and the exporter's extension. *)
Theorem http_response_headers {Table : Type}
    (self : Exporter Table) (table : Table)
    (filename : option (option string)) (encoding_hint : option string) :
  let r := dump_http_reponse self table filename encoding_hint in
  response_content_type r = content_type self
  ∧ headers r !! "Content-Disposition"
    = match filename with
      | Some (Some (String c name)) =>
          Some ("attachment; filename=" +:+ dquote +:+ String c name +:+ "."
                +:+ py_str (extension self) +:+ dquote)
      | Some (Some EmptyString) | Some None | None => None
      end
  ∧ streaming_content r
    = dump_iter self table None
        (Some (match filename with Some f => f | None => None end)) encoding_hint.
Proof.
  intros r. unfold r, dump_http_reponse.
  destruct filename as [[[|c name]|]|]; simpl.
  all: repeat split; try done.
  all: try apply lookup_insert_eq.
  all: by destruct encoding_hint.
Qed.

(** The hints can be read back from the output of an exporter that writes
    them. *)
Example hint_exporter_dumps :
  dumps hint_exporter [] (Some (Some "report.zip")) (Some "latin-1")
    = Returns (encode "report.ziplatin-1")
  ∧ dumps hint_exporter [] None None = Returns (encode "Noneutf-8").
Proof. split; reflexivity. Qed.

(** * Further properties of the module *)

(** ** dump_iter under every schedule *)

(** When the iteration is over, every chunk [dump] wrote was yielded or is
    still on the queue, in the order written: nothing vanishes and nothing
    is made up, whatever the schedule. *)
Theorem finished_iteration_accounts_for_every_chunk {Table : Type}
    (self : Exporter Table) (table : Table) (buffer_size : option Z)
    (filename_hint : option (option string)) (encoding_hint : option string)
    (sched : list Thread) :
  let s := run sched (dump_iter self table buffer_size filename_hint encoding_hint) in
  terminated s = true →
  chunks_of (dump self table (kw None filename_hint) (kw "utf-8" encoding_hint))
    = st_yielded s ++ items (st_queue s).
Proof.
  intros s Hterm.
  rewrite <- (in_flight_dump_iter self table buffer_size).
  rewrite <- (run_in_flight sched). fold s.
  assert (consistent s) as (_ & _ & Hfut & Hpc)
    by apply run_consistent, consistent_dump_iter.
  unfold terminated, outcome in Hterm. unfold in_flight, pending_chunks.
  destruct (st_pc s); try done; rewrite Hpc in Hfut;
    destruct Hfut as [-> ->]; simpl; by rewrite app_nil_r.
Qed.

(** An iteration that is over ended the way the future did, and that is the
    way [dump] ends: the generator returns when [dump] returns and raises
    the exception of [dump] when it raises, whatever the schedule. *)
Theorem finished_iteration_ends_like_dump {Table : Type}
    (self : Exporter Table) (table : Table) (buffer_size : option Z)
    (filename_hint : option (option string)) (encoding_hint : option string)
    (sched : list Thread) (c : Completion unit) :
  let s := run sched (dump_iter self table buffer_size filename_hint encoding_hint) in
  outcome s = Some c →
  c = ending_of (dump self table (kw None filename_hint) (kw "utf-8" encoding_hint))
  ∧ result (st_future s) = c.
Proof.
  intros s Hc.
  assert (consistent s) as Hs by apply run_consistent, consistent_dump_iter.
  split.
  - apply outcome_destined in Hc; [|done].
    rewrite Hc. unfold s. rewrite run_destined by apply consistent_dump_iter.
    reflexivity.
  - destruct Hs as (_ & _ & _ & Hpc). unfold outcome in Hc.
    destruct (st_pc s); try done; rewrite Hpc; by injection Hc.
Qed.

(** If the consumer tests the loop condition before the worker thread took
    the task, it never yields a chunk, whatever happens next. *)
Theorem early_poll_yields_nothing {Table : Type}
    (self : Exporter Table) (table : Table) (buffer_size : option Z)
    (filename_hint : option (option string)) (encoding_hint : option string)
    (more : list Thread) :
  st_yielded (run (early_poll ++ more)
                  (dump_iter self table buffer_size filename_hint encoding_hint)) = [].
Proof.
  rewrite run_app.
  set (P := λ s : State Table,
         st_yielded s = [] ∧
         match st_pc s with
         | AtResult | Stopped | Failed _ => True
         | _ => False
         end).
  cut (P (run more (run early_poll
         (dump_iter self table buffer_size filename_hint encoding_hint)))).
  { by intros [? _]. }
  apply run_invariant; [|by split].
  clear. intros t s s' [Hy Hpc] Hstep.
  destruct s as [q ex f w pc y]. simpl in *. subst y.
  destruct t; simpl in Hstep.
  - unfold worker_step in Hstep. simpl in Hstep.
    repeat case_match; simplify_eq; by split.
  - unfold consumer_step in Hstep. simpl in Hstep.
    destruct pc; try done; repeat case_match; simplify_eq; by split.
Qed.

(** With a bounded queue and a [dump] that writes more chunks than it
    holds, an iteration whose consumer tested the loop condition before the
    worker thread took the task never ends. *)
Theorem early_poll_never_ends_when_output_exceeds_buffer {Table : Type}
    (self : Exporter Table) (table : Table) (N : Z)
    (filename_hint : option (option string)) (encoding_hint : option string)
    (more : list Thread) :
  0 < N →
  N < Z.of_nat (length (chunks_of
        (dump self table (kw None filename_hint) (kw "utf-8" encoding_hint)))) →
  terminated (run (early_poll ++ more)
                  (dump_iter self table (Some N) filename_hint encoding_hint)) = false.
Proof.
  intros HN Hlen. rewrite run_app.
  apply (early_exit_never_terminates _ N).
  - apply run_consistent, consistent_dump_iter.
  - apply run_within_capacity. intros _. simpl. lia.
  - by rewrite run_maxsize.
  - done.
  - by rewrite run_in_flight, in_flight_dump_iter.
  - reflexivity.
  - reflexivity.
Qed.

(** When the whole output has room on the queue (the queue is unbounded, or
    [buffer_size] is at least the number of chunks), a worker that is at a
    [write] can always move: it never waits in [put]. *)
Theorem worker_never_waits_when_output_fits {Table : Type}
    (self : Exporter Table) (table : Table) (N : Z)
    (filename_hint : option (option string)) (encoding_hint : option string)
    (sched : list Thread) :
  N ≤ 0 ∨ Z.of_nat (length (chunks_of
        (dump self table (kw None filename_hint) (kw "utf-8" encoding_hint)))) ≤ N →
  let s := run sched (dump_iter self table (Some N) filename_hint encoding_hint) in
  ∀ b k, st_worker s = Some (PWrite b k) → is_Some (worker_step s).
Proof.
  intros Hfits s b k Hw.
  assert (consistent s) as (_ & Hnum & _ & _)
    by apply run_consistent, consistent_dump_iter.
  assert (maxsize (st_queue s) = N) as Hmax by (unfold s; by rewrite run_maxsize).
  rewrite <- (in_flight_dump_iter self table (Some N)) in Hfits.
  rewrite <- (run_in_flight sched) in Hfits. fold s in Hfits.
  unfold in_flight, pending_chunks in Hfits. rewrite Hw in Hfits.
  rewrite !length_app in Hfits. simpl in Hfits.
  unfold worker_step. rewrite Hnum, Hw. simpl.
  change (write (mkQueueWriter (st_queue s)) b)
    with (mkQueueWriter <$> Queue_put (st_queue s) b).
  unfold Queue_put, Queue_full. rewrite Hmax.
  destruct (Z.ltb_spec 0 N), (Z.leb_spec N (Z.of_nat (length (items (st_queue s)))));
    simpl; try (by eexists). lia.
Qed.

(** When the whole output has room on the queue, a round in which both
    threads get a turn brings the iteration closer to its end from any
    point, also after an early test of the loop condition. *)
Lemma step_output_fits {Table : Type} (t : Thread) (s s' : State Table) :
  output_fits s → step t s = Some s' → output_fits s'.
Proof.
  unfold output_fits. intros Hfits Hstep.
  rewrite (step_maxsize _ _ _ Hstep), (step_in_flight _ _ _ Hstep). done.
Qed.

Lemma run_output_fits {Table : Type} (sched : list Thread) (s : State Table) :
  output_fits s → output_fits (run sched s).
Proof. apply run_invariant. intros t s1 s2. apply step_output_fits. Qed.

Lemma round_makes_progress_when_output_fits {Table : Type} (s : State Table) :
  consistent s → output_fits s → terminated s = false →
  (rounds_bound (run [Worker; Consumer] s) < rounds_bound s)%nat.
Proof.
  intros (Hmax & Hnum & Hfut & Hpc) Hfits Hterm.
  destruct s as [[n l] [mw nt wq] f w pc y].
  unfold terminated, outcome in Hterm.
  unfold output_fits, in_flight, pending_chunks in Hfits.
  simpl in *. subst mw nt.
  destruct f as [| |x]; destruct Hfut as [Hw Hwq].
  - subst w. destruct wq as [|w [|w' wq]]; simpl in Hwq; try done.
    destruct pc; try done.
    all: unfold worker_step, consumer_step, rounds_bound; simpl.
    all: destruct l as [|c l]; simpl in *; lia.
  - destruct Hw as [p ->]. subst wq.
    destruct pc; try done.
    all: destruct p as [b k| |e]; unfold worker_step, consumer_step, rounds_bound;
      simpl.
    all: try (change (write (mkQueueWriter (mkQueue n l)) b)
                with (mkQueueWriter <$> Queue_put (mkQueue n l) b);
              unfold Queue_put, Queue_full; simpl;
              rewrite ?length_app in Hfits; simpl in Hfits;
              destruct (Z.ltb_spec 0 n), (Z.leb_spec n (Z.of_nat (length l)));
              simpl; try lia).
    all: destruct l as [|c l]; simpl in *; try lia.
    all: rewrite ?length_app; simpl; lia.
  - subst w wq.
    destruct pc; try done.
    all: unfold worker_step, consumer_step, rounds_bound; simpl.
    all: destruct l as [|c l]; simpl in *; try lia.
    all: destruct x; simpl; lia.
Qed.

Lemma alternate_terminates_when_output_fits {Table : Type} (n : nat) (s : State Table) :
  consistent s → output_fits s → (rounds_bound s ≤ n)%nat →
  terminated (run (alternate n) s) = true.
Proof.
  revert s. induction n as [|n IH]; intros s Hc Hfits Hn.
  - simpl. unfold rounds_bound, terminated, outcome in *.
    destruct (st_pc s); try done; try lia.
    destruct (_ && _); lia.
  - destruct (terminated s) eqn:Hterm.
    + by rewrite terminated_run.
    + change (alternate (S n)) with ([Worker; Consumer] ++ alternate n).
      rewrite run_app. apply IH.
      * by apply run_consistent.
      * by apply run_output_fits.
      * pose proof (round_makes_progress_when_output_fits s Hc Hfits Hterm). lia.
Qed.

(** When the whole output has room on the queue, the iteration can be
    brought to its end from every point of every schedule: letting the two
    threads take turns finishes it. *)
Theorem iteration_can_finish_when_output_fits {Table : Type}
    (self : Exporter Table) (table : Table) (N : Z)
    (filename_hint : option (option string)) (encoding_hint : option string)
    (sched : list Thread) :
  N ≤ 0 ∨ Z.of_nat (length (chunks_of
        (dump self table (kw None filename_hint) (kw "utf-8" encoding_hint)))) ≤ N →
  let s := run sched (dump_iter self table (Some N) filename_hint encoding_hint) in
  terminated (run (alternate (rounds_bound s)) s) = true.
Proof.
  intros Hfits s. apply alternate_terminates_when_output_fits; [| |done].
  - apply run_consistent, consistent_dump_iter.
  - apply run_output_fits. unfold output_fits.
    by rewrite in_flight_dump_iter.
Qed.

(** ** The task without a consumer *)

Lemma exec_QueueWriter (p : Prog) (q : Queue) :
  within_capacity q →
  exec p (mkQueueWriter q) =
  if decide (maxsize q ≤ 0
             ∨ Z.of_nat (length (items q) + length (chunks_of p)) ≤ maxsize q)
  then (mkQueueWriter (mkQueue (maxsize q) (items q ++ chunks_of p)), ending_of p)
  else (mkQueueWriter
          (mkQueue (maxsize q)
             (items q ++ take (Z.to_nat (maxsize q) - length (items q)) (chunks_of p))),
        Blocks).
Proof.
  revert q. induction p as [b k IH| |e]; intros [n l] Hcap;
    unfold within_capacity in *; simpl in *.
  - change (write (mkQueueWriter (mkQueue n l)) b)
      with (mkQueueWriter <$> Queue_put (mkQueue n l) b).
    unfold Queue_put, Queue_full. simpl.
    destruct (Z.ltb_spec 0 n), (Z.leb_spec n (Z.of_nat (length l))); simpl.
    + rewrite decide_False by lia.
      replace (Z.to_nat n - length l)%nat with 0%nat by lia.
      simpl. by rewrite app_nil_r.
    + rewrite IH by (simpl; rewrite length_app; simpl; lia).
      simpl. rewrite length_app. simpl. rewrite <- !app_assoc. simpl.
      repeat case_decide; try lia; try done.
      replace (Z.to_nat n - length l)%nat
        with (S (Z.to_nat n - (length l + 1)))%nat by lia.
      done.
    + rewrite IH by (simpl; lia). simpl. rewrite <- !app_assoc. simpl.
      repeat case_decide; try lia; done.
    + rewrite IH by (simpl; lia). simpl. rewrite <- !app_assoc. simpl.
      repeat case_decide; try lia; done.
  - rewrite app_nil_r. case_decide; [done | lia].
  - rewrite app_nil_r. case_decide; [done | lia].
Qed.

(** [_dump_iter] run with nobody taking from the queue: if the chunks of
    [dump] fit (the queue is unbounded or has room for all of them), the
    call ends as [dump] does and leaves them on the queue after the entries
    already there; otherwise it never returns, and the queue is full,
    holding the first chunks up to its capacity. *)
Theorem dump_iter_task_alone_fills_the_queue {Table : Type}
    (self : Exporter Table) (q : Queue) (table : Table)
    (filename_hint : option (option string)) (encoding_hint : option string) :
  within_capacity q →
  let body := dump self table (kw None filename_hint) (kw "utf-8" encoding_hint) in
  _dump_iter self q table filename_hint encoding_hint =
  if decide (maxsize q ≤ 0
             ∨ Z.of_nat (length (items q) + length (chunks_of body)) ≤ maxsize q)
  then (mkQueueWriter (mkQueue (maxsize q) (items q ++ chunks_of body)),
        ending_of body)
  else (mkQueueWriter
          (mkQueue (maxsize q)
             (items q
              ++ take (Z.to_nat (maxsize q) - length (items q)) (chunks_of body))),
        Blocks).
Proof. intros Hcap body. by apply exec_QueueWriter. Qed.

(** ** Through the queue and back *)

Lemma write_all_QueueWriter (q : Queue) (bs : list bytes) (fo : QueueWriter) :
  write_all (mkQueueWriter q) bs = Some fo →
  queue fo = mkQueue (maxsize q) (items q ++ bs).
Proof.
  revert q. induction bs as [|b bs IH]; intros [n l]; simpl.
  - intros [= <-]. by rewrite app_nil_r.
  - destruct (write (mkQueueWriter (mkQueue n l)) b) as [[q']|] eqn:Hw; [|done].
    apply write_QueueWriter_Some in Hw as [Hq' _]. simpl in Hq'. subst q'.
    intros Hall. apply IH in Hall. rewrite Hall. simpl. by rewrite <- app_assoc.
Qed.

Lemma get_n_all (q : Queue) :
  get_n (length (items q)) q = (items q, mkQueue (maxsize q) []).
Proof.
  destruct q as [n l]. simpl. induction l as [|b l IH]; simpl; [done|].
  unfold Queue_get. simpl. by rewrite IH.
Qed.

(** Chunks written through a [QueueWriter] come off the queue as they went
    in: after the writes returned, as many [get] calls as the queue has
    entries return the old entries and then the written chunks, unchanged
    and in order, and leave the queue empty. *)
Theorem written_chunks_come_back_in_order (q : Queue) (bs : list bytes)
    (fo : QueueWriter) :
  write_all (mkQueueWriter q) bs = Some fo →
  get_n (length (items q) + length bs) (queue fo)
    = (items q ++ bs, mkQueue (maxsize q) [])
  ∧ Queue_empty (get_n (length (items q) + length bs) (queue fo)).2 = true.
Proof.
  intros Hall. apply write_all_QueueWriter in Hall. rewrite Hall.
  rewrite <- length_app.
  change (length (items q ++ bs))
    with (length (items (mkQueue (maxsize q) (items q ++ bs)))).
  by rewrite get_n_all.
Qed.

(** ** The base class end to end *)

(** On the base class [dumps] raises [NotImplementedError], and
    [dump_iter] never yields or enqueues a chunk and can only end by
    raising [NotImplementedError], whatever the schedule. *)
Theorem base_class_exports_nothing {Table : Type}
    (table : Table) (buffer_size : option Z)
    (filename_hint : option (option string)) (encoding_hint : option string)
    (sched : list Thread) :
  let s := run sched (dump_iter (base_Exporter Table) table buffer_size
                                filename_hint encoding_hint) in
  let e := NotImplementedError "Subclasses should implement this method." in
  dumps (base_Exporter Table) table filename_hint encoding_hint = Raises e
  ∧ st_yielded s = []
  ∧ items (st_queue s) = []
  ∧ (outcome s = None ∨ outcome s = Some (Raises e)).
Proof.
  intros s e. split; [reflexivity|].
  pose proof (run_in_flight sched
                (dump_iter (base_Exporter Table) table buffer_size
                           filename_hint encoding_hint)) as Hfl.
  fold s in Hfl. rewrite in_flight_dump_iter in Hfl. simpl in Hfl.
  unfold in_flight in Hfl.
  apply app_eq_nil in Hfl as [Hy Hrest]. apply app_eq_nil in Hrest as [Hq _].
  repeat split; [done..|].
  destruct (outcome s) as [c|] eqn:Hc; [right | by left].
  apply outcome_destined in Hc as ->;
    [| apply run_consistent, consistent_dump_iter].
  unfold s. rewrite run_destined by apply consistent_dump_iter. reflexivity.
Qed.

(** ** The response of dump_http_reponse *)

(** The response streams [dump] called with the [filename] argument as its
    filename hint (the name without the extension), through a queue of the
    default size: whatever the schedule, what was yielded is an initial
    part of that output and at most 20 chunks wait on the queue. *)
Theorem http_response_streams_dump_of_filename {Table : Type}
    (self : Exporter Table) (table : Table)
    (filename : option (option string)) (encoding_hint : option string)
    (sched : list Thread) :
  let r := dump_http_reponse self table filename encoding_hint in
  let s := run sched (streaming_content r) in
  st_yielded s `prefix_of`
    chunks_of (dump self table (kw None filename) (kw "utf-8" encoding_hint))
  ∧ Z.of_nat (length (items (st_queue s))) ≤ 20.
Proof.
  intros r s.
  assert (streaming_content r
          = dump_iter self table None (Some (kw None filename))
                      (Some (kw "utf-8" encoding_hint))) as Hr.
  { unfold r, dump_http_reponse. by destruct (truthy _). }
  unfold s. rewrite Hr. split.
  - assert (in_flight (dump_iter self table None (Some (kw None filename))
                                 (Some (kw "utf-8" encoding_hint)))
            = chunks_of (dump self table (kw None filename)
                              (kw "utf-8" encoding_hint))) as <-
      by (by rewrite in_flight_dump_iter).
    rewrite <- (run_in_flight sched). unfold in_flight. by eexists.
  - pose proof (run_within_capacity sched
                  (dump_iter self table None (Some (kw None filename))
                             (Some (kw "utf-8" encoding_hint)))) as Hcap.
    unfold within_capacity in Hcap. rewrite run_maxsize in Hcap.
    simpl in Hcap. apply Hcap; lia.
Qed.

(** For an exporter that leaves [extension] unset, as the base class does,
    the suggested file name ends in [.None]. *)
Theorem unset_extension_is_rendered_as_None {Table : Type}
    (self : Exporter Table) (table : Table) (c : Ascii.ascii) (name : string)
    (encoding_hint : option string) :
  extension self = None →
  headers (dump_http_reponse self table (Some (Some (String c name))) encoding_hint)
    !! "Content-Disposition"
  = Some ("attachment; filename=" +:+ dquote +:+ String c name +:+ ".None"
          +:+ dquote).
Proof.
  intros Hext. unfold dump_http_reponse, attachment_of. simpl. rewrite Hext.
  rewrite lookup_insert_eq. reflexivity.
Qed.

(** ** The properties at concrete inputs *)

(** A worker-first run of [line_exporter] on one row that reaches its end. *)
Lemma worker_first_yields_everything_witness :
  let s := run (worker_first [Worker; Worker; Consumer; Consumer; Consumer;
                              Consumer; Consumer; Consumer])
               (dump_iter line_exporter [[Byte.x61]] None None None) in
  terminated s = true
  ∧ st_yielded s = chunks_of (dump line_exporter [[Byte.x61]] None "utf-8")
  ∧ (outcome s = Some (Returns tt) →
     dumps line_exporter [[Byte.x61]] None None = Returns (concat (st_yielded s))).
Proof.
  split; [reflexivity|].
  apply (worker_first_yields_everything line_exporter [[Byte.x61]] None None None
           [Worker; Worker; Consumer; Consumer; Consumer; Consumer; Consumer;
            Consumer]).
  reflexivity.
Defined.

(** A run of [line_exporter] that ends after an early test: the chunk is
    accounted for on the queue. *)
Lemma finished_iteration_accounts_for_every_chunk_witness :
  let s := run [Consumer; Consumer; Worker; Worker; Worker; Consumer]
               (dump_iter line_exporter [[Byte.x61]] None None None) in
  terminated s = true
  ∧ chunks_of (dump line_exporter [[Byte.x61]] None "utf-8")
    = st_yielded s ++ items (st_queue s).
Proof.
  split; [reflexivity|].
  apply (finished_iteration_accounts_for_every_chunk line_exporter [[Byte.x61]]
           None None None [Consumer; Consumer; Worker; Worker; Worker; Consumer]).
  reflexivity.
Defined.

(** A run of [failing_exporter] that reaches its end. *)
Lemma finished_iteration_ends_like_dump_witness :
  let s := run [Worker; Worker; Worker; Consumer; Consumer; Consumer; Consumer;
                Consumer; Consumer]
               (dump_iter failing_exporter [[Byte.x61]] None None None) in
  outcome s = Some (Raises (Exc "OSError" "disk full"))
  ∧ Raises (Exc "OSError" "disk full")
    = ending_of (dump failing_exporter [[Byte.x61]] None "utf-8")
  ∧ result (st_future s) = Raises (Exc "OSError" "disk full").
Proof.
  split; [reflexivity|].
  apply (finished_iteration_ends_like_dump failing_exporter [[Byte.x61]]
           None None None
           [Worker; Worker; Worker; Consumer; Consumer; Consumer; Consumer;
            Consumer; Consumer]).
  reflexivity.
Defined.

(** Two rows through a queue of size one. *)
Lemma early_poll_never_ends_when_output_exceeds_buffer_witness :
  0 < 1
  ∧ 1 < Z.of_nat (length (chunks_of
          (dump line_exporter [[Byte.x61]; [Byte.x62]] None "utf-8")))
  ∧ terminated (run (early_poll ++ [Worker; Worker; Worker; Consumer])
                    (dump_iter line_exporter [[Byte.x61]; [Byte.x62]] (Some 1)
                               None None)) = false.
Proof.
  split; [lia|]. split; [simpl; lia|].
  apply (early_poll_never_ends_when_output_exceeds_buffer
           line_exporter [[Byte.x61]; [Byte.x62]] 1 None None
           [Worker; Worker; Worker; Consumer]); simpl; lia.
Defined.

(** Two rows through an unbounded queue. *)
Lemma worker_never_waits_when_output_fits_witness :
  (0 ≤ 0 ∨ Z.of_nat (length (chunks_of
              (dump line_exporter [[Byte.x61]; [Byte.x62]] None "utf-8"))) ≤ 0)
  ∧ let s := run [Worker; Worker]
                 (dump_iter line_exporter [[Byte.x61]; [Byte.x62]] (Some 0)
                            None None) in
    ∀ b k, st_worker s = Some (PWrite b k) → is_Some (worker_step s).
Proof.
  split; [left; lia|].
  apply (worker_never_waits_when_output_fits
           line_exporter [[Byte.x61]; [Byte.x62]] 0 None None [Worker; Worker]).
  left. lia.
Defined.

(** Two rows through a queue of size two, after an early test. *)
Lemma iteration_can_finish_when_output_fits_witness :
  (2 ≤ 0 ∨ Z.of_nat (length (chunks_of
              (dump line_exporter [[Byte.x61]; [Byte.x62]] None "utf-8"))) ≤ 2)
  ∧ let s := run [Consumer; Consumer; Worker]
                 (dump_iter line_exporter [[Byte.x61]; [Byte.x62]] (Some 2)
                            None None) in
    terminated (run (alternate (rounds_bound s)) s) = true.
Proof.
  split; [right; simpl; lia|].
  apply (iteration_can_finish_when_output_fits
           line_exporter [[Byte.x61]; [Byte.x62]] 2 None None
           [Consumer; Consumer; Worker]).
  right. simpl. lia.
Defined.

(** Two rows into a fresh queue of size one: the task waits with the first
    row on the queue. *)
Lemma dump_iter_task_alone_fills_the_queue_witness :
  within_capacity (Queue_new 1)
  ∧ _dump_iter line_exporter (Queue_new 1) [[Byte.x61]; [Byte.x62]] None None
    = (mkQueueWriter (mkQueue 1 [[Byte.x61]]), Blocks).
Proof.
  split; [intros _; simpl; lia|].
  apply (dump_iter_task_alone_fills_the_queue
           line_exporter (Queue_new 1) [[Byte.x61]; [Byte.x62]] None None).
  intros _. simpl. lia.
Defined.

(** Two chunks through a queue of size two that already holds none. *)
Lemma written_chunks_come_back_in_order_witness :
  write_all (mkQueueWriter (Queue_new 2)) [[Byte.x61]; [Byte.x62]]
    = Some (mkQueueWriter (mkQueue 2 [[Byte.x61]; [Byte.x62]]))
  ∧ get_n 2 (mkQueue 2 [[Byte.x61]; [Byte.x62]])
    = ([[Byte.x61]; [Byte.x62]], mkQueue 2 [])
  ∧ Queue_empty (get_n 2 (mkQueue 2 [[Byte.x61]; [Byte.x62]])).2 = true.
Proof.
  split; [reflexivity|].
  apply (written_chunks_come_back_in_order (Queue_new 2)
           [[Byte.x61]; [Byte.x62]]
           (mkQueueWriter (mkQueue 2 [[Byte.x61]; [Byte.x62]]))).
  reflexivity.
Defined.

(** The base class asked for a file name. *)
Lemma unset_extension_is_rendered_as_None_witness :
  extension (base_Exporter Rows) = None
  ∧ headers (dump_http_reponse (base_Exporter Rows) [] (Some (Some "export")) None)
      !! "Content-Disposition"
    = Some ("attachment; filename=" +:+ dquote +:+ "export" +:+ ".None" +:+ dquote).
Proof.
  split; [reflexivity|].
  apply (unset_extension_is_rendered_as_None (base_Exporter Rows) []
           (Ascii.Ascii true false true false false true true false) "xport"
           None).
  reflexivity.
Defined.
